(** * txkv: an in-memory key-value store with read-committed transactions

    A shallow embedding of [txkv.go].  Keys and values are byte sequences;
    the store [memkv] wraps the sorted map of package [internal/ds]; a
    transaction [txmemkv] is an overlay (a private [memkv] plus the two key
    sets [updated] and [tombstones]) on top of the store it was begun on.

    Every exported method runs under the mutex of its receiver.  The
    embedding is sequential: one method call is one step, the mutexes are
    left out, and a pointer receiver becomes explicit state passing. *)

From stdpp Require Import gmap strings list sorting.

Local Open Scope string_scope.
Local Open Scope list_scope.

#[local] Set Warnings "-clear-no-such-hyp".

(** ** Keys and values

    [type Key []byte] and [type Value []byte].  A Rocq [string] is a
    sequence of 8-bit characters, that is, a byte sequence; it is also what
    Go's [string(key)] conversion yields.  The order on keys is the
    byte-wise lexicographic one ([String.le], [bytes.Compare] in Go). *)

Abbreviation Key := string.
Abbreviation Value := string.

(** [bytes.HasPrefix(s, prefix)]: [s] begins with [prefix]. *)
Definition HasPrefix (s prefix : Key) : bool := String.prefix prefix s.

(** ** Byte slices

    The [Key] and [Value] that a caller passes are slices: windows of an
    array that the caller may write to again after the call.  [memory] is
    what the arrays hold at some moment.  [bytes] is what a slice reads as
    in a memory; it is also what Go's conversion [string(key)], which
    copies, makes of it.  The methods below are first given on the bytes
    that keys and values read as; the store and the transaction that hold
    the slices themselves come after them ([memkvS], [txmemkvS]). *)

Record slice := Slice { array : nat; offset : nat; len : nat }.

Abbreviation memory := (gmap nat (list Ascii.ascii)).

Definition bytes (mem : memory) (s : slice) : string :=
  String.string_of_list_ascii
    (take (len s) (drop (offset s) (default [] (mem !! array s)))).

(** The caller writes [b] at index [i] of an array. *)
Definition poke (a i : nat) (b : Ascii.ascii) (mem : memory) : memory :=
  alter (λ content, <[i:=b]> content) a mem.

(** The [error] results: every method of the file returns [nil]. *)
Definition error := option string.
Definition nil_error : error := None.

(** A method on a pointer receiver of type [S] returning [A]: it reads the
    receiver's state and leaves a state behind. *)
Definition method (S A : Type) : Type := S → A * S.

Definition result {S A} (m : method S A) (s : S) : A := (m s).1.
Definition exec {S A} (m : method S A) (s : S) : S := (m s).2.

(** ** Package [internal/ds] *)

Module ds.

(** Modelled from the spec: package [internal/ds] (the types
    [SortedBytesToBytesMap] and [SortedBytesSet]) is not among the source
    files.  The map follows the collaborator contract of the
    specification: a finite map from keys to values, at most one mapping
    per key, iterated in ascending key order. *)
Abbreviation SortedBytesToBytesMap := (gmap Key Value).

Definition NewSortedBytesToBytesMap : SortedBytesToBytesMap := ∅.

(** The order of iteration: entries by ascending key. *)
Definition entry_le (e1 e2 : Key * Value) : Prop := String.le e1.1 e2.1.

Global Instance entry_le_dec : RelDecision entry_le.
Proof. intros e1 e2. unfold entry_le. apply _. Defined.

Definition entries (m : SortedBytesToBytesMap) : list (Key * Value) :=
  merge_sort entry_le (map_to_list m).

(** Modelled from the spec: [Put(k, v)] inserts or overwrites. *)
Definition Put (k : Key) (v : Value) (m : SortedBytesToBytesMap)
  : SortedBytesToBytesMap := <[k:=v]> m.

(** Modelled from the spec: the map as [txkv.go] calls it, on slices.  The
    contract of [Put(k, v)] is "insert or overwrite" and has no word of a
    copy: an entry holds the two slices that [Put] was given (at a key that
    is present, the entry keeps its key and takes the new value), and a
    stored key is compared by the bytes that it reads as when it is
    compared. *)
Abbreviation SliceMap := (list (slice * slice)).



(** Modelled from the spec: [Get(k)] returns [(v, found)]. *)
Definition Get (k : Key) (m : SortedBytesToBytesMap) : option Value :=
  m !! k.

(** Modelled from the spec: [Delete(k)] returns [(v, found)] and removes
    the key if present, and does nothing otherwise. *)
Definition Delete (k : Key) (m : SortedBytesToBytesMap)
  : option Value * SortedBytesToBytesMap := (m !! k, delete k m).

(** Modelled from the spec: [Ceiling(k)] is the entry of the smallest
    stored key [≥ k], or not found if there is none. *)
Definition Ceiling (k : Key) (m : SortedBytesToBytesMap)
  : option (Key * Value) :=
  head (filter (λ e, String.le k e.1) (entries m)).

(** Modelled from the spec: [Max()] is the entry of the largest stored
    key, or not found if the map is empty. *)
Definition Max (m : SortedBytesToBytesMap) : option (Key * Value) :=
  last (entries m).

(** The visitor of a scan is a Go closure that updates captured
    variables: it is passed the captured state and returns it together
    with its boolean result. *)
Fixpoint visit_while {E A} (visit : E → A → bool * A) (es : list E) (a : A)
  : A :=
  match es with
  | [] => a
  | e :: es =>
      let '(continue, a) := visit e a in
      if continue then visit_while visit es a else a
  end.

(** Modelled from the spec: [RangedKeys(lo, hi, visit)] visits the stored
    keys in [[lo, hi]] in ascending order and stops the first time
    [visit] returns false. *)
Definition RangedKeys {A} (lo hi : Key)
    (visit : Key → Value → A → bool * A)
    (m : SortedBytesToBytesMap) (a : A) : A :=
  visit_while (λ e, visit e.1 e.2)
    (filter (λ e, String.le lo e.1 ∧ String.le e.1 hi) (entries m)) a.

(** Modelled from the spec: [SortedBytesSet], the set of the "sorted-key
    deduplicating merge": [Put] adds a key, [Keys] visits the members
    once each in ascending order. *)
Abbreviation SortedBytesSet := (gset Key).

Definition NewSortedBytesSet : SortedBytesSet := ∅.

Definition SetPut (k : Key) (s : SortedBytesSet) : SortedBytesSet :=
  {[k]} ∪ s.

Definition Keys {A} (visit : Key → A → bool * A) (s : SortedBytesSet)
    (a : A) : A :=
  visit_while visit (merge_sort String.le (elements s)) a.

End ds.

(** ** The store: [memkv] *)

Record memkv := Memkv { smap : ds.SortedBytesToBytesMap }.

Definition newMemKV : memkv := Memkv ds.NewSortedBytesToBytesMap.

(** [InMem] returns a fresh store. *)
Definition InMem : memkv := newMemKV.

Definition memkv_put (key : Key) (value : Value) (k : memkv) : memkv :=
  Memkv (ds.Put key value (smap k)).

Definition memkv_Put (key : Key) (value : Value) : method memkv error :=
  λ k, (nil_error, memkv_put key value k).

Definition memkv_get (key : Key) (k : memkv) : option Value :=
  ds.Get key (smap k).

Definition memkv_Get (key : Key) : method memkv (option Value * error) :=
  λ k, ((memkv_get key k, nil_error), k).

Definition memkv_delete (key : Key) (k : memkv) : memkv :=
  Memkv (ds.Delete key (smap k)).2.

Definition memkv_Delete (key : Key) : method memkv error :=
  λ k, (nil_error, memkv_delete key k).

(** [list]: from the ceiling of [prefix] to the largest key, as long as the
    visited key has the prefix.  When [Ceiling] finds nothing the result is
    the nil slice; the [ok] of [Max] is ignored by the code. *)
Definition memkv_list (prefix : Key) (k : memkv) : list Key :=
  match ds.Ceiling prefix (smap k) with
  | None => []
  | Some (firstK, _) =>
      let lastK := from_option fst "" (ds.Max (smap k)) in
      ds.RangedKeys firstK lastK
        (λ k _ keys,
           if negb (HasPrefix k prefix) then (false, keys)
           else (true, keys ++ [k]))
        (smap k) []
  end.

Definition memkv_List (prefix : Key) : method memkv (list Key * error) :=
  λ k, ((memkv_list prefix k, nil_error), k).

Definition store7 : memkv :=
  foldl (λ kv key, exec (memkv_Put key "world") kv) InMem
    ["0"; "1"; "10"; "11"; "12"; "13"; "2"].

(** ** The transaction: [txmemkv]

    [root] is a pointer to the store the transaction was begun on, which the
    store's other clients use too: the field holds what that store contains
    at the moment, and a step of another client changes it ([reach_root]
    below).  [tx] points to the overlay, a store that only the transaction
    holds.  The Go maps [map[string]struct{}] are sets of keys. *)

Record txmemkv := Txmemkv {
  root : memkv;
  tx : memkv;
  updated : gset Key;
  tombstones : gset Key;
}.

Definition set_root (r : memkv) (k : txmemkv) : txmemkv :=
  Txmemkv r (tx k) (updated k) (tombstones k).
Definition set_tx (t : memkv) (k : txmemkv) : txmemkv :=
  Txmemkv (root k) t (updated k) (tombstones k).
Definition set_updated (u : gset Key) (k : txmemkv) : txmemkv :=
  Txmemkv (root k) (tx k) u (tombstones k).
Definition set_tombstones (d : gset Key) (k : txmemkv) : txmemkv :=
  Txmemkv (root k) (tx k) (updated k) d.

Definition memkv_Begin : method memkv (txmemkv * error) :=
  λ k, ((Txmemkv k newMemKV ∅ ∅, nil_error), k).

Definition txmemkv_Put (key : Key) (value : Value) : method txmemkv error :=
  λ k,
    let k := set_tombstones (tombstones k ∖ {[key]}) k in
    let k := set_updated ({[key]} ∪ updated k) k in
    let '(err, t) := memkv_Put key value (tx k) in
    (err, set_tx t k).

Definition txmemkv_Get (key : Key) : method txmemkv (option Value * error) :=
  λ k,
    if decide (key ∈ tombstones k) then ((None, nil_error), k)
    else if decide (key ∈ updated k) then
      let '(r, t) := memkv_Get key (tx k) in (r, set_tx t k)
    else
      let '(r, b) := memkv_Get key (root k) in (r, set_root b k).

Definition txmemkv_Delete (key : Key) : method txmemkv error :=
  λ k,
    let k := set_tombstones ({[key]} ∪ tombstones k) k in
    let k := set_updated (updated k ∖ {[key]}) k in
    let '(err, t) := memkv_Delete key (tx k) in
    (err, set_tx t k).

(** [List]: the keys listed by the root that carry no tombstone, then the
    keys listed by the overlay, are put into a sorted set, whose keys are
    read out in order. *)
Definition txmemkv_List (prefix : Key) : method txmemkv (list Key * error) :=
  λ k,
    let keys := memkv_list prefix (root k) in
    let txkeys := memkv_list prefix (tx k) in
    let merged := ds.NewSortedBytesSet in
    let merged :=
      foldl (λ merged key,
               if decide (key ∈ tombstones k) then merged
               else ds.SetPut key merged) merged keys in
    let merged := foldl (λ merged key, ds.SetPut key merged) merged txkeys in
    let out := ds.Keys (λ k out, (true, out ++ [k])) merged [] in
    ((out, nil_error), k).

(** [Commit].  Go ranges over a map in an order it does not fix: the two
    loops are given the order in which they meet the keys, and [Commit]
    itself takes the keys as [elements] lists them ([commit_order] shows
    that the order is immaterial). *)
Definition commit_deletes (deleted : list Key) (r : memkv) : memkv :=
  foldl (λ r deleted, memkv_delete deleted r) r deleted.

Definition commit_updates (t : memkv) (updated : list Key) (r : memkv)
  : memkv :=
  foldl (λ r key,
           match memkv_get key t with
           | Some v => memkv_put key v r
           | None => r
           end) r updated.

Definition commit_in (dels upds : list Key) (k : txmemkv) : txmemkv :=
  set_root (commit_updates (tx k) upds (commit_deletes dels (root k))) k.

Definition txmemkv_Commit : method txmemkv error :=
  λ k,
    (nil_error,
     commit_in (elements (tombstones k)) (elements (updated k)) k).

Definition txmemkv_Rollback : method txmemkv error :=
  λ k, (nil_error, k).

(** ** The states of a transaction

    A transaction starts at [Begin] on some store; between two of its own
    method calls, the other clients of the root may have changed the root
    in any way. *)
Inductive reachable : txmemkv → Prop :=
  | reach_Begin r : reachable (result memkv_Begin r).1
  | reach_Put k key value :
      reachable k → reachable (exec (txmemkv_Put key value) k)
  | reach_Get k key : reachable k → reachable (exec (txmemkv_Get key) k)
  | reach_Delete k key :
      reachable k → reachable (exec (txmemkv_Delete key) k)
  | reach_List k prefix :
      reachable k → reachable (exec (txmemkv_List prefix) k)
  | reach_Commit k : reachable k → reachable (exec txmemkv_Commit k)
  | reach_Rollback k : reachable k → reachable (exec txmemkv_Rollback k)
  | reach_root k r : reachable k → reachable (set_root r k).

(** The invariant of the two sets and the overlay. *)
Definition tx_inv (k : txmemkv) : Prop :=
  updated k ## tombstones k ∧
  ∀ key, key ∈ updated k → is_Some (memkv_get key (tx k)).

(** What [Commit] leaves in the root at [key]. *)
Definition committed (k : txmemkv) (key : Key) : option Value :=
  if decide (key ∈ updated k ∧ is_Some (memkv_get key (tx k)))
  then memkv_get key (tx k)
  else if decide (key ∈ tombstones k) then None
  else memkv_get key (root k).

(** The test "tx: add many, list a slice". *)
Definition tx7 : txmemkv :=
  foldl (λ k key, exec (txmemkv_Put key "world") k)
    (result memkv_Begin store7).1 ["14"; "15"].

(** ** The store and the transaction on slices

    [put] hands the caller's two slices to the map as they are
    ([k.smap.Put(key, value)]), and [Put] on a transaction does the same
    with its overlay after it has put [string(key)], a copy of the bytes,
    into the two sets.  [memkvS] and [txmemkvS] are the store and the
    transaction with maps of slices.  Read in a memory they are a [memkv]
    and a [txmemkv], and [Get] and [List], which only read, answer on that
    reading. *)















(** A caller's memory: the key "hello" in array 0, the value "world" in
    array 1, and a second copy of the key in array 2. *)
Definition mem0 : memory :=
  {[ 0 := String.list_ascii_of_string "hello";
     1 := String.list_ascii_of_string "world";
     2 := String.list_ascii_of_string "hello" ]}.

(** The same memory after the caller has overwritten the first byte of
    the key array with "J" and the first byte of the value array with
    "W". *)
Definition mem1 : memory :=
  poke 1 0 (Ascii.ascii_of_nat 87) (poke 0 0 (Ascii.ascii_of_nat 74) mem0).




(** The transaction of [tx7] after it has also deleted the key 10, which
    the root holds. *)
Definition tx8 : txmemkv := exec (txmemkv_Delete "10") tx7.

(** * Properties *)

Example list_store7 : memkv_list "1" store7 = ["1"; "10"; "11"; "12"; "13"].
Proof. vm_compute. reflexivity. Qed.

Example list_tx7 :
  (result (txmemkv_List "1") tx7).1
  = ["1"; "10"; "11"; "12"; "13"; "14"; "15"]
  ∧ (result (txmemkv_List "1") (exec txmemkv_Commit tx7)).1
  = ["1"; "10"; "11"; "12"; "13"; "14"; "15"]
  ∧ memkv_list "1" (root (exec txmemkv_Commit tx7))
  = ["1"; "10"; "11"; "12"; "13"; "14"; "15"]
  ∧ memkv_list "1" (root tx7) = ["1"; "10"; "11"; "12"; "13"].
Proof. vm_compute. done. Qed.

Example bytes_mem1 :
  bytes mem0 (Slice 0 0 5) = "hello" ∧ bytes mem0 (Slice 1 0 5) = "world"
  ∧ bytes mem1 (Slice 0 0 5) = "Jello" ∧ bytes mem1 (Slice 1 0 5) = "World"
  ∧ bytes mem1 (Slice 2 0 5) = "hello" ∧ bytes mem1 (Slice 2 1 3) = "ell".
Proof. vm_compute. done. Qed.

(** The tests "tx: add, delete, get" and "tx: add, delete, add, get". *)
Example tx_add_delete_get :
  let tx0 := (result memkv_Begin InMem).1 in
  let tx1 := exec (txmemkv_Put "hello" "world") tx0 in
  let tx2 := exec (txmemkv_Delete "hello") tx1 in
  let tx3 := exec txmemkv_Commit tx2 in
  result (txmemkv_Get "hello") tx1 = (Some "world", nil_error)
  ∧ result (memkv_Get "hello") (root tx1) = (None, nil_error)
  ∧ result (txmemkv_Get "hello") tx2 = (None, nil_error)
  ∧ result (memkv_Get "hello") (root tx3) = (None, nil_error)
  ∧ result (txmemkv_Get "hello") tx3 = (None, nil_error)
  ∧ result (txmemkv_List "hello") tx3 = ([], nil_error).
Proof. vm_compute. done. Qed.

Example tx_add_delete_add_get :
  let tx0 := (result memkv_Begin InMem).1 in
  let tx1 := exec (txmemkv_Put "hello" "world") tx0 in
  let tx2 := exec (txmemkv_Delete "hello") tx1 in
  let tx3 := exec (txmemkv_Put "hello" "world") tx2 in
  let tx4 := exec txmemkv_Commit tx3 in
  result (txmemkv_Get "hello") tx3 = (Some "world", nil_error)
  ∧ result (memkv_Get "hello") (root tx3) = (None, nil_error)
  ∧ result (memkv_Get "hello") (root tx4) = (Some "world", nil_error)
  ∧ result (txmemkv_Get "hello") tx4 = (Some "world", nil_error)
  ∧ result (txmemkv_List "hello") tx4 = (["hello"], nil_error).
Proof. vm_compute. done. Qed.

(** ** The byte order on keys *)

Section byte_order.

Lemma ascii_compare_refl a : Ascii.compare a a = Eq.
Proof. unfold Ascii.compare. apply N.compare_refl. Qed.

Lemma HasPrefix_nil s : HasPrefix s "" = true.
Proof. by destruct s. Qed.

Lemma HasPrefix_cons a s b p :
  HasPrefix (String a s) (String b p) = true ↔ a = b ∧ HasPrefix s p = true.
Proof.
  unfold HasPrefix. simpl. destruct (Ascii.ascii_dec b a) as [->|Hne].
  - naive_solver.
  - split; [done|]. intros [-> _]. done.
Qed.

Lemma HasPrefix_app s p : HasPrefix s p = true ↔ ∃ t, s = String.app p t.
Proof.
  revert s. induction p as [|b p IH]; intros s.
  - rewrite HasPrefix_nil. split; [|done]. intros _. by exists s.
  - destruct s as [|a s].
    + split; [done|]. by intros [t ?].
    + rewrite HasPrefix_cons, IH. split.
      * intros [-> [t ->]]. by exists t.
      * intros [t Ht]. injection Ht as -> ->. eauto.
Qed.

Lemma le_cons a s b t :
  String.le (String a s) (String b t) ↔
  Ascii.compare a b = Lt ∨ (a = b ∧ String.le s t).
Proof.
  unfold String.le, String.leb. simpl.
  destruct (Ascii.compare a b) eqn:Hab.
  - apply Ascii.compare_eq_iff in Hab as ->. naive_solver.
  - naive_solver.
  - split; [done|]. intros [?|[-> _]]; [done|].
    by rewrite ascii_compare_refl in Hab.
Qed.

(** A key is at or after each of its prefixes. *)
Lemma HasPrefix_le s p : HasPrefix s p = true → String.le p s.
Proof.
  revert s. induction p as [|b p IH]; intros [|a s]; try done.
  rewrite HasPrefix_cons, le_cons. naive_solver.
Qed.

(** The keys that begin with [p] are contiguous in the order: what lies
    between [p] and a key that begins with [p] begins with [p]. *)
Lemma HasPrefix_between p x y :
  String.le p x → String.le x y → HasPrefix y p = true →
  HasPrefix x p = true.
Proof.
  revert x y. induction p as [|b p IH]; intros x y Hpx Hxy Hy.
  { apply HasPrefix_nil. }
  destruct y as [|c y]; [done|]. destruct x as [|a x]; [done|].
  apply HasPrefix_cons in Hy as [-> Hy].
  apply le_cons in Hpx, Hxy. apply HasPrefix_cons.
  destruct Hpx as [Hlt|[-> Hpx]], Hxy as [Hlt'|[Heq Hxy]]; subst.
  - rewrite Ascii.compare_antisym, Hlt in Hlt'. done.
  - by rewrite ascii_compare_refl in Hlt.
  - by rewrite ascii_compare_refl in Hlt'.
  - eauto.
Qed.

End byte_order.

(** ** The sorted map *)

Section sorted_map.

Implicit Types (m : gmap Key Value) (e : Key * Value) (es : list (Key * Value)).

Local Instance entry_le_trans : Transitive ds.entry_le.
Proof. intros e1 e2 e3. unfold ds.entry_le. apply transitivity. Qed.

Local Instance entry_le_total : Total ds.entry_le.
Proof. intros e1 e2. unfold ds.entry_le. apply total, _. Qed.

Lemma entries_perm m : ds.entries m ≡ₚ map_to_list m.
Proof. apply merge_sort_Permutation. Qed.

Lemma entries_sorted m : StronglySorted ds.entry_le (ds.entries m).
Proof. apply StronglySorted_merge_sort; apply _. Qed.

Lemma elem_of_entries m k v : (k, v) ∈ ds.entries m ↔ m !! k = Some v.
Proof. by rewrite entries_perm, elem_of_map_to_list. Qed.

Lemma entries_keys_NoDup m : NoDup (ds.entries m).*1.
Proof. rewrite entries_perm. apply NoDup_fst_map_to_list. Qed.

Lemma entries_keys_sorted m : StronglySorted String.le (ds.entries m).*1.
Proof.
  apply (StronglySorted_fmap fst ds.entry_le); [done|apply entries_sorted].
Qed.

Lemma elem_of_entries_keys m k : k ∈ (ds.entries m).*1 ↔ is_Some (m !! k).
Proof.
  rewrite list_elem_of_fmap. split.
  - intros [[k' v] [-> He]]. apply elem_of_entries in He. by exists v.
  - intros [v Hv]. exists (k, v). by rewrite elem_of_entries.
Qed.

(** The last entry of a sorted list is its greatest. *)
Lemma sorted_last_max es e e' :
  StronglySorted ds.entry_le es → last es = Some e' → e ∈ es →
  ds.entry_le e e'.
Proof.
  intros Hs [es' ->]%last_Some [He|He]%elem_of_app.
  - eapply StronglySorted_app_1_elem_of; [done..|]. by left.
  - apply list_elem_of_singleton in He as ->. unfold ds.entry_le. done.
Qed.

(** The scan of [list] over sorted entries at or after [p] yields the
    entries that begin with [p]: after the first that does not, none
    does. *)
Lemma visit_prefix_scan p es keys :
  StronglySorted ds.entry_le es →
  Forall (λ e, String.le p e.1) es →
  ds.visit_while
    (λ e keys,
       if negb (HasPrefix e.1 p) then (false, keys)
       else (true, keys ++ [e.1])) es keys
  = keys ++ (filter (λ e, HasPrefix e.1 p = true) es).*1.
Proof.
  intros Hs. revert keys.
  induction Hs as [|e es Hs IH Hall]; intros keys Hge; simpl.
  { by rewrite app_nil_r. }
  apply Forall_cons in Hge as [Hpe Hge].
  destruct (HasPrefix e.1 p) eqn:He; simpl.
  - rewrite IH by done. rewrite filter_cons_True by done.
    by rewrite <-app_assoc.
  - rewrite filter_cons_False by (by rewrite He).
    replace (filter (λ e, HasPrefix e.1 p = true) es) with (@nil (Key * Value)).
    { by rewrite app_nil_r. }
    symmetry. apply elem_of_nil_inv. intros e' [Hp' He']%list_elem_of_filter.
    rewrite Forall_forall in Hall. specialize (Hall e' He').
    rewrite (HasPrefix_between p e.1 e'.1) in He; done.
Qed.

End sorted_map.

(** ** The store *)

Section list_facts.

Context {A : Type}.
Implicit Types (l : list A) (P Q : A → Prop) (R : relation A).

Lemma StronglySorted_filter R P `{!∀ x, Decision (P x)} l :
  StronglySorted R l → StronglySorted R (filter P l).
Proof.
  induction 1 as [|x l Hs IH Hall]; [constructor|].
  rewrite filter_cons. case_decide; [|done].
  constructor; [done|]. rewrite Forall_forall in Hall |- *.
  intros y [_ Hy]%list_elem_of_filter. auto.
Qed.

Lemma filter_ext_elem_of P Q `{!∀ x, Decision (P x), !∀ x, Decision (Q x)} l :
  (∀ x, x ∈ l → P x ↔ Q x) → filter P l = filter Q l.
Proof.
  induction l as [|x l IH]; intros Hext; [done|].
  rewrite !filter_cons.
  assert (P x ↔ Q x) as Hx by (apply Hext; left).
  rewrite IH by (intros y Hy; apply Hext; by right).
  repeat case_decide; tauto.
Qed.

Lemma StronglySorted_head R `{!Reflexive R} l x y :
  StronglySorted R l → head l = Some x → y ∈ l → R x y.
Proof.
  intros Hs [l' ->]%head_Some Hy. apply StronglySorted_cons in Hs as [Hall _].
  apply elem_of_cons in Hy as [->|Hy]; [done|].
  rewrite Forall_forall in Hall. auto.
Qed.

End list_facts.

Section store.

Implicit Types (k : memkv) (key prefix : Key).

Local Instance entry_le_refl : Reflexive ds.entry_le.
Proof. intros e. unfold ds.entry_le. done. Qed.

(** [list] computes the entries that begin with the prefix, in order. *)
Lemma memkv_list_filter prefix k :
  memkv_list prefix k
  = (filter (λ e, HasPrefix e.1 prefix = true) (ds.entries (smap k))).*1.
Proof.
  unfold memkv_list, ds.Ceiling, ds.RangedKeys, ds.Max.
  set (es := ds.entries (smap k)).
  set (ge := filter (λ e, String.le prefix e.1) es).
  assert (filter (λ e, HasPrefix e.1 prefix = true) ge
          = filter (λ e, HasPrefix e.1 prefix = true) es) as Hfilter.
  { apply list_filter_filter_l. intros e. apply HasPrefix_le. }
  assert (StronglySorted ds.entry_le ge) as Hsorted.
  { apply StronglySorted_filter, entries_sorted. }
  destruct (head ge) as [[firstK v]|] eqn:Hhead.
  - assert (is_Some (last es)) as [eN HeN].
    { destruct (last es) eqn:Hl; [by eexists|]. apply last_None in Hl.
      apply head_Some_elem_of, list_elem_of_filter in Hhead as [_ Hin].
      rewrite Hl in Hin. by apply elem_of_nil in Hin. }
    rewrite HeN. simpl.
    assert (String.le prefix firstK) as Hfirst.
    { by apply head_Some_elem_of, list_elem_of_filter in Hhead as [? _]. }
    rewrite (filter_ext_elem_of _ (λ e, String.le prefix e.1)).
    + rewrite <-Hfilter. fold ge.
      rewrite (visit_prefix_scan prefix ge []); [done|done|].
      apply Forall_forall. by intros e [? _]%list_elem_of_filter.
    + intros e He. split.
      * intros [Hlo _]. by etrans.
      * intros Hge. split.
        -- apply (StronglySorted_head ds.entry_le ge (firstK, v) e);
             [done..|]. by apply list_elem_of_filter.
        -- by apply (sorted_last_max es e eN); [apply entries_sorted|..].
  - apply head_None in Hhead. by rewrite <-Hfilter, Hhead.
Qed.

Lemma elem_of_memkv_list prefix k key :
  key ∈ memkv_list prefix k ↔
  is_Some (memkv_get key k) ∧ HasPrefix key prefix = true.
Proof.
  rewrite memkv_list_filter, list_elem_of_fmap.
  unfold memkv_get, ds.Get. split.
  - intros [[key' v] [-> [Hp He]%list_elem_of_filter]].
    apply elem_of_entries in He. split; [by exists v|done].
  - intros [[v Hv] Hp]. exists (key, v). split; [done|].
    apply list_elem_of_filter. by rewrite elem_of_entries.
Qed.

Lemma memkv_list_sorted prefix k :
  StronglySorted String.le (memkv_list prefix k).
Proof.
  rewrite memkv_list_filter.
  apply (StronglySorted_fmap fst ds.entry_le); [done|].
  apply StronglySorted_filter, entries_sorted.
Qed.

Lemma memkv_list_NoDup prefix k : NoDup (memkv_list prefix k).
Proof.
  rewrite memkv_list_filter.
  eapply sublist_NoDup; [apply entries_keys_NoDup|].
  apply fmap_sublist, sublist_filter.
Qed.

End store.

(** ** The transaction *)

Section transaction.

Implicit Types (k : txmemkv) (r t : memkv) (key prefix : Key).

Lemma memkv_eq r1 r2 :
  (∀ key, memkv_get key r1 = memkv_get key r2) → r1 = r2.
Proof.
  destruct r1 as [m1], r2 as [m2]. unfold memkv_get, ds.Get. simpl.
  intros Heq. f_equal. by apply map_eq.
Qed.

Lemma get_put key key' value r :
  memkv_get key (memkv_put key' value r)
  = if decide (key = key') then Some value else memkv_get key r.
Proof.
  unfold memkv_get, memkv_put, ds.Get, ds.Put. simpl.
  case_decide as Heq.
  - subst. apply lookup_insert_eq.
  - by apply lookup_insert_ne.
Qed.

Lemma get_delete key key' r :
  memkv_get key (memkv_delete key' r)
  = if decide (key = key') then None else memkv_get key r.
Proof.
  unfold memkv_get, memkv_delete, ds.Get, ds.Delete. simpl.
  case_decide as Heq.
  - subst. apply lookup_delete_eq.
  - by apply lookup_delete_ne.
Qed.

Lemma get_newMemKV key : memkv_get key newMemKV = None.
Proof. apply lookup_empty. Qed.

(** *** [List] *)

Lemma visit_append (l out : list Key) :
  ds.visit_while (λ x out, (true, out ++ [x])) l out = out ++ l.
Proof.
  revert out. induction l as [|x l IH]; intros out; simpl.
  - by rewrite app_nil_r.
  - by rewrite IH, <-app_assoc.
Qed.

Lemma elem_of_merge_live (dead : gset Key) (keys : list Key)
    (merged : gset Key) key :
  key ∈ foldl (λ merged key,
                 if decide (key ∈ dead) then merged
                 else ds.SetPut key merged) merged keys
  ↔ key ∈ merged ∨ (key ∈ keys ∧ key ∉ dead).
Proof.
  revert merged. induction keys as [|x keys IH]; intros merged; simpl.
  - rewrite elem_of_nil. tauto.
  - rewrite IH, elem_of_cons. unfold ds.SetPut. case_decide; set_solver.
Qed.

Lemma elem_of_merge_all (keys : list Key) (merged : gset Key) key :
  key ∈ foldl (λ merged key, ds.SetPut key merged) merged keys
  ↔ key ∈ merged ∨ key ∈ keys.
Proof.
  revert merged. induction keys as [|x keys IH]; intros merged; simpl.
  - rewrite elem_of_nil. tauto.
  - rewrite IH, elem_of_cons. unfold ds.SetPut. set_solver.
Qed.

Lemma elem_of_txmemkv_List prefix k key :
  key ∈ (result (txmemkv_List prefix) k).1 ↔
  (key ∈ memkv_list prefix (root k) ∧ key ∉ tombstones k)
  ∨ key ∈ memkv_list prefix (tx k).
Proof.
  unfold result, txmemkv_List, ds.Keys. simpl.
  rewrite visit_append, app_nil_l, merge_sort_Permutation, elem_of_elements.
  rewrite elem_of_merge_all, elem_of_merge_live.
  unfold ds.NewSortedBytesSet. set_solver.
Qed.

Lemma txmemkv_List_sorted prefix k :
  StronglySorted String.le (result (txmemkv_List prefix) k).1.
Proof.
  unfold result, txmemkv_List, ds.Keys. simpl.
  rewrite visit_append, app_nil_l. apply StronglySorted_merge_sort; apply _.
Qed.

Lemma txmemkv_List_NoDup prefix k :
  NoDup (result (txmemkv_List prefix) k).1.
Proof.
  unfold result, txmemkv_List, ds.Keys. simpl.
  rewrite visit_append, app_nil_l, merge_sort_Permutation.
  apply NoDup_elements.
Qed.

(** *** [Commit] *)

Lemma get_commit_deletes key dels r :
  memkv_get key (commit_deletes dels r)
  = if decide (key ∈ dels) then None else memkv_get key r.
Proof.
  unfold commit_deletes.
  induction dels as [|d dels IH] using rev_ind.
  - done.
  - rewrite foldl_app. simpl. rewrite get_delete, IH.
    repeat case_decide; set_solver.
Qed.

Lemma get_commit_updates key t upds r :
  memkv_get key (commit_updates t upds r)
  = if decide (key ∈ upds ∧ is_Some (memkv_get key t))
    then memkv_get key t else memkv_get key r.
Proof.
  unfold commit_updates.
  induction upds as [|u upds IH] using rev_ind.
  - done.
  - rewrite foldl_app. simpl.
    destruct (memkv_get u t) as [v|] eqn:Hu.
    + rewrite get_put, IH. destruct (decide (key = u)) as [->|Hne].
      * rewrite decide_True; [done|]. rewrite Hu. set_solver.
      * repeat case_decide; set_solver.
    + rewrite IH.
      assert (key ∈ upds ++ [u] ∧ is_Some (memkv_get key t)
              ↔ key ∈ upds ∧ is_Some (memkv_get key t)) as Hiff.
      { rewrite elem_of_app, list_elem_of_singleton. split; [|tauto].
        intros [[?| ->] Hs]; [done|]. rewrite Hu in Hs. by destruct Hs. }
      repeat case_decide; tauto.
Qed.

Lemma get_commit_in key dels upds k :
  memkv_get key (root (commit_in dels upds k))
  = if decide (key ∈ upds ∧ is_Some (memkv_get key (tx k)))
    then memkv_get key (tx k)
    else if decide (key ∈ dels) then None
    else memkv_get key (root k).
Proof.
  unfold commit_in. simpl. by rewrite get_commit_updates, get_commit_deletes.
Qed.

Lemma get_Commit key k :
  memkv_get key (root (exec txmemkv_Commit k)) = committed k key.
Proof.
  unfold exec, txmemkv_Commit, committed. cbn [snd]. rewrite get_commit_in.
  pose proof (elem_of_elements (tombstones k) key).
  pose proof (elem_of_elements (updated k) key).
  repeat case_decide; first [done|tauto].
Qed.

Lemma txmemkv_eq k1 k2 :
  root k1 = root k2 → tx k1 = tx k2 → updated k1 = updated k2 →
  tombstones k1 = tombstones k2 → k1 = k2.
Proof. destruct k1, k2. simpl. by intros -> -> -> ->. Qed.

(** Whatever the order in which Go's [range] yields the keys of the two
    maps, [Commit] leaves the same state. *)
Lemma commit_order dels upds k :
  dels ≡ₚ elements (tombstones k) → upds ≡ₚ elements (updated k) →
  commit_in dels upds k = exec txmemkv_Commit k.
Proof.
  intros Hd Hu. apply txmemkv_eq; [|done..].
  apply memkv_eq. intros key. rewrite get_commit_in, get_Commit.
  unfold committed.
  assert (key ∈ dels ↔ key ∈ tombstones k) as Hd'.
  { by rewrite Hd, elem_of_elements. }
  assert (key ∈ upds ↔ key ∈ updated k) as Hu'.
  { by rewrite Hu, elem_of_elements. }
  repeat case_decide; first [done|tauto].
Qed.

(** *** The invariant *)

Lemma tx_inv_Begin r : tx_inv (result memkv_Begin r).1.
Proof.
  split; simpl; [set_solver|]. intros key []%not_elem_of_empty.
Qed.

Lemma tx_inv_Put key value k : tx_inv k → tx_inv (exec (txmemkv_Put key value) k).
Proof.
  intros [Hdisj Hov]. split; simpl; [set_solver|].
  intros key' Hin. rewrite get_put. case_decide; [done|].
  apply Hov. set_solver.
Qed.

Lemma tx_inv_Delete key k : tx_inv k → tx_inv (exec (txmemkv_Delete key) k).
Proof.
  intros [Hdisj Hov]. split; simpl; [set_solver|].
  intros key' Hin. rewrite get_delete. rewrite decide_False by set_solver.
  apply Hov. set_solver.
Qed.

Lemma exec_Get key k : exec (txmemkv_Get key) k = k.
Proof.
  unfold exec, txmemkv_Get. repeat case_decide; simpl; by destruct k.
Qed.

Lemma exec_List prefix k : exec (txmemkv_List prefix) k = k.
Proof. done. Qed.

Lemma reachable_inv k : reachable k → tx_inv k.
Proof.
  induction 1 as [r|k key value _ IH|k key _ IH|k key _ IH|k prefix _ IH
                  |k _ IH|k _ IH|k r _ IH].
  - apply tx_inv_Begin.
  - by apply tx_inv_Put.
  - by rewrite exec_Get.
  - by apply tx_inv_Delete.
  - by rewrite exec_List.
  - exact IH.
  - exact IH.
  - exact IH.
Qed.

End transaction.

(** * The claims *)

Section claims.

Implicit Types (k : txmemkv) (r : memkv) (key prefix : Key) (value : Value).

Lemma reachable_tx7 : reachable tx7.
Proof.
  change tx7 with
    (exec (txmemkv_Put "15" "world")
       (exec (txmemkv_Put "14" "world") (result memkv_Begin store7).1)).
  apply reach_Put, reach_Put, reach_Begin.
Defined.

Lemma result_Get_tombstoned key k :
  key ∈ tombstones k → result (txmemkv_Get key) k = (None, nil_error).
Proof. intros Hin. unfold result, txmemkv_Get. by rewrite decide_True. Qed.

Lemma result_Get_updated key k :
  key ∉ tombstones k → key ∈ updated k →
  result (txmemkv_Get key) k = (memkv_get key (tx k), nil_error).
Proof.
  intros Hd Hu. unfold result, txmemkv_Get.
  by rewrite decide_False, decide_True.
Qed.

Lemma result_Get_root key k :
  key ∉ tombstones k → key ∉ updated k →
  result (txmemkv_Get key) k = result (memkv_Get key) (root k).
Proof.
  intros Hd Hu. unfold result, txmemkv_Get. by rewrite !decide_False.
Qed.

(** C1: [Get] on a transaction resolves the key in a fixed order.  A key
    with a tombstone is not found.  Otherwise a key of the updated set is
    read from the overlay, where it is found.  Otherwise the answer is the
    answer of the root's [Get] on what the root holds when [Get] is called:
    whatever store [r] the other clients have made of the root since
    [Begin], the transaction reads [r]. *)
Theorem C1_Get_resolution k key :
  reachable k →
  (key ∈ tombstones k → result (txmemkv_Get key) k = (None, nil_error))
  ∧ (key ∉ tombstones k → key ∈ updated k →
       result (txmemkv_Get key) k = (memkv_get key (tx k), nil_error)
       ∧ is_Some (memkv_get key (tx k)))
  ∧ (key ∉ tombstones k → key ∉ updated k →
       result (txmemkv_Get key) k = result (memkv_Get key) (root k)
       ∧ ∀ r, result (txmemkv_Get key) (set_root r k)
              = result (memkv_Get key) r).
Proof.
  intros [_ Hov]%reachable_inv. split_and!.
  - apply result_Get_tombstoned.
  - intros Hd Hu. split; [by apply result_Get_updated|by apply Hov].
  - intros Hd Hu. split; [by apply result_Get_root|].
    intros r. by rewrite result_Get_root.
Qed.

Lemma C1_Get_resolution_witness :
  reachable tx7 ∧ ("14" ∉ tombstones tx7) ∧ ("14" ∈ updated tx7)
  ∧ result (txmemkv_Get "14") tx7 = (memkv_get "14" (tx tx7), nil_error)
  ∧ is_Some (memkv_get "14" (tx tx7)).
Proof.
  assert ("14" ∉ tombstones tx7) as Hd by compute_done.
  assert ("14" ∈ updated tx7) as Hu by compute_done.
  destruct (C1_Get_resolution tx7 "14" reachable_tx7) as (_ & H & _).
  split_and!; [exact reachable_tx7|exact Hd|exact Hu|apply (H Hd Hu)..].
Defined.

(** C2: [List] on a store returns the stored keys that begin with the
    prefix, each once, in ascending byte order; the list is the outcome of
    the scan from the ceiling of the prefix to the largest key that stops
    at the first key without the prefix.  Over the keys 0, 1, 10, 11, 12,
    13 and 2, the prefix 1 lists 1, 10, 11, 12, 13. *)
Theorem C2_List_prefix r prefix :
  (∀ key, key ∈ (result (memkv_List prefix) r).1 ↔
          is_Some ((result (memkv_Get key) r).1)
          ∧ ∃ rest, key = String.app prefix rest)
  ∧ StronglySorted String.le (result (memkv_List prefix) r).1
  ∧ NoDup (result (memkv_List prefix) r).1
  ∧ (result (memkv_List prefix) r).2 = nil_error
  ∧ exec (memkv_List prefix) r = r
  ∧ (result (memkv_List "1") store7).1 = ["1"; "10"; "11"; "12"; "13"].
Proof.
  split_and!.
  - intros key. simpl. by rewrite elem_of_memkv_list, HasPrefix_app.
  - apply memkv_list_sorted.
  - apply memkv_list_NoDup.
  - done.
  - done.
  - vm_compute. reflexivity.
Qed.

(** C3: [List] on a transaction returns the union of the root's [List]
    without the keys that have a tombstone and of the overlay's [List];
    every key of the union is listed once, and the list is in ascending
    byte order. *)
Theorem C3_tx_List_merge k prefix :
  (∀ key, key ∈ (result (txmemkv_List prefix) k).1 ↔
          (key ∈ (result (memkv_List prefix) (root k)).1
           ∧ key ∉ tombstones k)
          ∨ key ∈ (result (memkv_List prefix) (tx k)).1)
  ∧ NoDup (result (txmemkv_List prefix) k).1
  ∧ StronglySorted String.le (result (txmemkv_List prefix) k).1.
Proof.
  split_and!.
  - intros key. apply elem_of_txmemkv_List.
  - apply txmemkv_List_NoDup.
  - apply txmemkv_List_sorted.
Qed.

(** C4: after [Commit], a key that had a tombstone is absent from the
    root, a key of the updated set for which the overlay holds a value is
    mapped to that value in the root, and every other key is mapped in the
    root as it was before. *)
Theorem C4_Commit_postcondition k :
  reachable k →
  (∀ key, key ∈ tombstones k →
          memkv_get key (root (exec txmemkv_Commit k)) = None)
  ∧ (∀ key value, key ∈ updated k → memkv_get key (tx k) = Some value →
          memkv_get key (root (exec txmemkv_Commit k)) = Some value)
  ∧ (∀ key, key ∉ tombstones k →
          ¬ (key ∈ updated k ∧ is_Some (memkv_get key (tx k))) →
          memkv_get key (root (exec txmemkv_Commit k))
          = memkv_get key (root k)).
Proof.
  intros [Hdisj _]%reachable_inv. split_and!.
  - intros key Hd. rewrite get_Commit. unfold committed.
    rewrite decide_False by set_solver. by rewrite decide_True.
  - intros key value Hu Hv. rewrite get_Commit. unfold committed.
    rewrite decide_True; [done|]. by rewrite Hv.
  - intros key Hd Hu. rewrite get_Commit. unfold committed.
    by rewrite !decide_False.
Qed.

Lemma C4_Commit_postcondition_witness :
  reachable tx7
  ∧ memkv_get "14" (root (exec txmemkv_Commit tx7)) = Some "world".
Proof.
  split; [exact reachable_tx7|].
  destruct (C4_Commit_postcondition tx7 reachable_tx7) as (_ & H & _).
  apply (H "14" "world"); [compute_done|vm_compute; reflexivity].
Defined.

(** C5: in every state that the operations [Put], [Get], [Delete],
    [List], [Commit] and [Rollback] lead to from the state made by
    [Begin], the updated set and the tombstones are disjoint and every key
    of the updated set has a value in the overlay, so that [Get] finds a
    value for it. *)
Theorem C5_transaction_invariant k :
  reachable k →
  updated k ## tombstones k
  ∧ (∀ key, key ∈ updated k → is_Some (memkv_get key (tx k)))
  ∧ (∀ key, key ∈ updated k →
        ∃ value, result (txmemkv_Get key) k = (Some value, nil_error)).
Proof.
  intros [Hdisj Hov]%reachable_inv. split_and!; [done..|].
  intros key Hu. destruct (Hov key Hu) as [value Hv]. exists value.
  rewrite result_Get_updated; [by rewrite Hv|set_solver|done].
Qed.

Lemma C5_transaction_invariant_witness :
  reachable tx7
  ∧ updated tx7 ## tombstones tx7
  ∧ (∀ key, key ∈ updated tx7 → is_Some (memkv_get key (tx tx7)))
  ∧ (∀ key, key ∈ updated tx7 →
        ∃ value, result (txmemkv_Get key) tx7 = (Some value, nil_error)).
Proof.
  split; [exact reachable_tx7|].
  exact (C5_transaction_invariant tx7 reachable_tx7).
Defined.

Lemma get_tx_Put key value k :
  memkv_get key (tx (exec (txmemkv_Put key value) k)) = Some value.
Proof. simpl. rewrite get_put. by rewrite decide_True. Qed.

Lemma exec_Commit_idem k :
  exec txmemkv_Commit (exec txmemkv_Commit k) = exec txmemkv_Commit k.
Proof.
  apply txmemkv_eq; [|done..]. apply memkv_eq. intros key.
  rewrite get_Commit. unfold committed at 1.
  change (updated (exec txmemkv_Commit k)) with (updated k).
  change (tombstones (exec txmemkv_Commit k)) with (tombstones k).
  change (tx (exec txmemkv_Commit k)) with (tx k).
  rewrite get_Commit. unfold committed.
  repeat case_decide; first [done|tauto].
Qed.

(** C6: [Put] and [Delete] on a transaction leave the root as it is.  For
    a key absent from the root, after [Put] of a value on the transaction
    the root's [Get] does not find the key and the transaction's [Get]
    returns the value; after [Commit] the root's [Get] returns the
    value. *)
Theorem C6_isolation k key value :
  root (exec (txmemkv_Put key value) k) = root k
  ∧ root (exec (txmemkv_Delete key) k) = root k
  ∧ ((result (memkv_Get key) (root k)).1 = None →
     result (memkv_Get key) (root (exec (txmemkv_Put key value) k))
     = (None, nil_error)
     ∧ result (txmemkv_Get key) (exec (txmemkv_Put key value) k)
       = (Some value, nil_error)
     ∧ result (memkv_Get key)
         (root (exec txmemkv_Commit (exec (txmemkv_Put key value) k)))
       = (Some value, nil_error)).
Proof.
  split_and!; [done..|]. intros Habsent. split_and!.
  - unfold result. simpl in *. by rewrite Habsent.
  - rewrite result_Get_updated; [|simpl; set_solver..].
    by rewrite get_tx_Put.
  - unfold result at 1. cbn [memkv_Get fst]. rewrite get_Commit.
    unfold committed. rewrite decide_True; [by rewrite get_tx_Put|].
    rewrite get_tx_Put. split; [simpl; set_solver|done].
Qed.

Lemma C6_isolation_witness :
  (result (memkv_Get "hello") (root (result memkv_Begin InMem).1)).1 = None
  ∧ result (txmemkv_Get "hello")
      (exec (txmemkv_Put "hello" "world") (result memkv_Begin InMem).1)
    = (Some "world", nil_error)
  ∧ result (memkv_Get "hello")
      (root (exec txmemkv_Commit
               (exec (txmemkv_Put "hello" "world")
                  (result memkv_Begin InMem).1)))
    = (Some "world", nil_error).
Proof.
  assert ((result (memkv_Get "hello") (root (result memkv_Begin InMem).1)).1
          = None) as Habsent by reflexivity.
  destruct (C6_isolation (result memkv_Begin InMem).1 "hello" "world")
    as (_ & _ & H).
  destruct (H Habsent) as (_ & Htx & Hroot).
  split_and!; [exact Habsent|exact Htx|exact Hroot].
Defined.









(** C8: a second [Commit] right after a first one leaves the root, and
    the transaction as a whole, as the first one left them; this holds for
    every order in which the two calls range over the two sets. *)
Theorem C8_Commit_idempotent k :
  root (exec txmemkv_Commit (exec txmemkv_Commit k))
  = root (exec txmemkv_Commit k)
  ∧ exec txmemkv_Commit (exec txmemkv_Commit k) = exec txmemkv_Commit k
  ∧ ∀ dels1 upds1 dels2 upds2,
      dels1 ≡ₚ elements (tombstones k) → upds1 ≡ₚ elements (updated k) →
      dels2 ≡ₚ elements (tombstones k) → upds2 ≡ₚ elements (updated k) →
      commit_in dels2 upds2 (commit_in dels1 upds1 k)
      = commit_in dels1 upds1 k.
Proof.
  split_and!.
  - by rewrite exec_Commit_idem.
  - apply exec_Commit_idem.
  - intros dels1 upds1 dels2 upds2 Hd1 Hu1 Hd2 Hu2.
    rewrite (commit_order dels1 upds1 k) by done.
    rewrite (commit_order dels2 upds2) by done.
    apply exec_Commit_idem.
Qed.

Lemma C8_Commit_idempotent_witness :
  commit_in [] ["15"; "14"] (commit_in [] ["14"; "15"] tx7)
  = commit_in [] ["14"; "15"] tx7.
Proof.
  destruct (C8_Commit_idempotent tx7) as (_ & _ & H).
  assert ([] ≡ₚ elements (tombstones tx7)) as Hd.
  { vm_compute. reflexivity. }
  assert (["14"; "15"] ≡ₚ elements (updated tx7)) as Hu.
  { apply NoDup_Permutation; [compute_done|apply NoDup_elements|].
    intros x. rewrite elem_of_elements. unfold tx7. simpl. set_solver. }
  apply H; [exact Hd|exact Hu|exact Hd|].
  etrans; [apply Permutation_swap|exact Hu].
Defined.

(** C9: [Rollback] changes nothing: the root, the overlay and the two
    sets are after the call what they were before it. *)
Theorem C9_Rollback_noop k :
  exec txmemkv_Rollback k = k
  ∧ root (exec txmemkv_Rollback k) = root k
  ∧ tx (exec txmemkv_Rollback k) = tx k
  ∧ updated (exec txmemkv_Rollback k) = updated k
  ∧ tombstones (exec txmemkv_Rollback k) = tombstones k
  ∧ result txmemkv_Rollback k = nil_error.
Proof. by split_and!. Qed.

(** C10: [Commit] leaves the overlay and the two sets of the transaction
    as they were, so the buffered writes and deletes stay pending; a
    [Commit] after a [Rollback] does what [Commit] alone does: the keys
    with a tombstone leave the root and the values of the updated keys
    enter it. *)
Theorem C10_Commit_keeps_buffers k :
  tx (exec txmemkv_Commit k) = tx k
  ∧ updated (exec txmemkv_Commit k) = updated k
  ∧ tombstones (exec txmemkv_Commit k) = tombstones k
  ∧ exec txmemkv_Commit (exec txmemkv_Rollback k) = exec txmemkv_Commit k
  ∧ (reachable k →
     (∀ key, key ∈ tombstones k →
        memkv_get key
          (root (exec txmemkv_Commit (exec txmemkv_Rollback k))) = None)
     ∧ (∀ key, key ∈ updated k →
        is_Some (memkv_get key (tx k))
        ∧ memkv_get key
            (root (exec txmemkv_Commit (exec txmemkv_Rollback k)))
          = memkv_get key (tx k))).
Proof.
  split_and!; [done..|]. intros [Hdisj Hov]%reachable_inv.
  change (exec txmemkv_Rollback k) with k. split.
  - intros key Hd. rewrite get_Commit. unfold committed.
    rewrite decide_False by set_solver. by rewrite decide_True.
  - intros key Hu. split; [by apply Hov|].
    rewrite get_Commit. unfold committed.
    rewrite decide_True; [done|]. split; [done|by apply Hov].
Qed.

Lemma C10_Commit_keeps_buffers_witness :
  reachable tx7
  ∧ memkv_get "15" (root (exec txmemkv_Commit (exec txmemkv_Rollback tx7)))
    = memkv_get "15" (tx tx7).
Proof.
  split; [exact reachable_tx7|].
  destruct (C10_Commit_keeps_buffers tx7) as (_ & _ & _ & _ & H).
  destruct (H reachable_tx7) as [_ Hu].
  apply (Hu "15"). compute_done.
Defined.

End claims.

(** * Further properties of the store and of the transaction *)

Section views.

Implicit Types (k : txmemkv) (r : memkv) (key prefix : Key) (value : Value).

Lemma reachable_tx8 : reachable tx8.
Proof. apply reach_Delete, reachable_tx7. Defined.

(** Two sorted lists without duplicates that have the same members are
    the same list. *)
Lemma sorted_keys_eq (l1 l2 : list Key) :
  StronglySorted String.le l1 → StronglySorted String.le l2 →
  NoDup l1 → NoDup l2 → (∀ x, x ∈ l1 ↔ x ∈ l2) → l1 = l2.
Proof.
  intros Hs1 Hs2 Hn1 Hn2 Hmem.
  apply (StronglySorted_unique String.le); [done..|].
  by apply NoDup_Permutation.
Qed.

(** What [Get] on a transaction answers. *)
Lemma result_Get key k :
  result (txmemkv_Get key) k
  = (if decide (key ∈ tombstones k) then None
     else if decide (key ∈ updated k) then memkv_get key (tx k)
     else memkv_get key (root k), nil_error).
Proof. unfold result, txmemkv_Get. by repeat case_decide. Qed.

(** The overlay holds no key outside the updated set. *)
Lemma reachable_overlay k key :
  reachable k → is_Some (memkv_get key (tx k)) → key ∈ updated k.
Proof.
  intros Hk. revert key.
  induction Hk as [r|k key' value _ IH|k key' _ IH|k key' _ IH|k prefix _ IH
                   |k _ IH|k _ IH|k r _ IH]; intros key; try exact (IH key).
  - simpl. rewrite get_newMemKV. by intros [? ?].
  - simpl. rewrite get_put. case_decide as Heq; [set_solver|].
    intros Hs. specialize (IH key Hs). set_solver.
  - rewrite exec_Get. apply IH.
  - simpl. rewrite get_delete. case_decide as Heq; [by intros [? ?]|].
    intros Hs. specialize (IH key Hs). set_solver.
Qed.

(** On a reachable transaction, [List] lists the keys with the prefix
    that [Get] finds. *)
Lemma elem_of_List_Get prefix k key :
  reachable k →
  key ∈ (result (txmemkv_List prefix) k).1 ↔
  is_Some ((result (txmemkv_Get key) k).1) ∧ HasPrefix key prefix = true.
Proof.
  intros Hk. destruct (reachable_inv k Hk) as [Hdisj Hov].
  pose proof (reachable_overlay k key Hk) as Hdom.
  rewrite elem_of_txmemkv_List, !elem_of_memkv_list, result_Get. simpl.
  assert (key ∈ updated k → key ∈ tombstones k → False) as Hd by set_solver.
  specialize (Hov key). pose proof (@is_Some_None Value) as HN.
  repeat case_decide; tauto.
Qed.

Lemma get_Commit_view key k :
  reachable k →
  memkv_get key (root (exec txmemkv_Commit k))
  = (result (txmemkv_Get key) k).1.
Proof.
  intros Hk. destruct (reachable_inv k Hk) as [Hdisj Hov].
  rewrite get_Commit, result_Get. unfold committed. simpl.
  specialize (Hov key). repeat case_decide; first [done|set_solver|tauto].
Qed.

Lemma result_Get_Commit key k :
  reachable k →
  result (txmemkv_Get key) (exec txmemkv_Commit k)
  = result (txmemkv_Get key) k.
Proof.
  intros Hk. rewrite !result_Get.
  change (tombstones (exec txmemkv_Commit k)) with (tombstones k).
  change (updated (exec txmemkv_Commit k)) with (updated k).
  change (tx (exec txmemkv_Commit k)) with (tx k).
  repeat case_decide; try done.
  rewrite get_Commit_view, result_Get by done. simpl.
  by rewrite !decide_False.
Qed.

End views.

Section store_updates.

Implicit Types (r : memkv) (key prefix : Key) (value : Value).

(** X1: what [Put] changes in a store, as [Get] and [List] show it.  [Get]
    of the key returns the value put, also an empty one, and [Get] of any
    other key answers as before; [List] lists the key under each of its
    prefixes, and the other keys as before. *)
Theorem X1_store_Put r key value :
  (∀ key', result (memkv_Get key') (exec (memkv_Put key value) r)
           = if decide (key' = key) then (Some value, nil_error)
             else result (memkv_Get key') r)
  ∧ (∀ prefix key',
       key' ∈ (result (memkv_List prefix) (exec (memkv_Put key value) r)).1
       ↔ (key' = key ∧ HasPrefix key prefix = true)
         ∨ key' ∈ (result (memkv_List prefix) r).1).
Proof.
  split.
  - intros key'.
    change (exec (memkv_Put key value) r) with (memkv_put key value r).
    change (result (memkv_Get key') ?s) with (memkv_get key' s, nil_error).
    rewrite get_put. by case_decide.
  - intros prefix key'.
    change (exec (memkv_Put key value) r) with (memkv_put key value r).
    change (result (memkv_List prefix) ?s).1 with (memkv_list prefix s).
    rewrite !elem_of_memkv_list, get_put.
    pose proof (@is_Some_None Value) as HN.
    case_decide as Heq; [subst|tauto].
    split; [tauto|]. intros [[_ ?]|[_ ?]]; by split.
Qed.

(** X2: what [Delete] changes in a store.  [Get] of the key finds
    nothing, [List] does not list it, and the other keys are found and
    listed as before.  [Delete] of a key that the store does not hold
    leaves the store as it is, and so does [Put] of such a key followed by
    its [Delete]. *)
Theorem X2_store_Delete r key :
  (∀ key', result (memkv_Get key') (exec (memkv_Delete key) r)
           = if decide (key' = key) then (None, nil_error)
             else result (memkv_Get key') r)
  ∧ (∀ prefix key',
       key' ∈ (result (memkv_List prefix) (exec (memkv_Delete key) r)).1
       ↔ key' ≠ key ∧ key' ∈ (result (memkv_List prefix) r).1)
  ∧ ((result (memkv_Get key) r).1 = None →
       exec (memkv_Delete key) r = r
       ∧ ∀ value,
           exec (memkv_Delete key) (exec (memkv_Put key value) r) = r).
Proof.
  split_and!.
  - intros key'.
    change (exec (memkv_Delete key) r) with (memkv_delete key r).
    change (result (memkv_Get key') ?s) with (memkv_get key' s, nil_error).
    rewrite get_delete. by case_decide.
  - intros prefix key'.
    change (exec (memkv_Delete key) r) with (memkv_delete key r).
    change (result (memkv_List prefix) ?s).1 with (memkv_list prefix s).
    rewrite !elem_of_memkv_list, get_delete.
    pose proof (@is_Some_None Value) as HN.
    case_decide as Heq; tauto.
  - intros Habsent. simpl in Habsent. split.
    + apply memkv_eq. intros key'.
      change (exec (memkv_Delete key) r) with (memkv_delete key r).
      rewrite get_delete. case_decide; by subst.
    + intros value. apply memkv_eq. intros key'.
      change (exec (memkv_Delete key) ?s) with (memkv_delete key s).
      change (exec (memkv_Put key value) r) with (memkv_put key value r).
      rewrite get_delete, get_put. case_decide; by subst.
Qed.

Lemma X2_store_Delete_witness :
  (result (memkv_Get "3") store7).1 = None
  ∧ exec (memkv_Delete "3") store7 = store7
  ∧ exec (memkv_Delete "3") (exec (memkv_Put "3" "world") store7) = store7.
Proof.
  assert ((result (memkv_Get "3") store7).1 = None) as Habsent
    by (vm_compute; reflexivity).
  destruct (X2_store_Delete store7 "3") as (_ & _ & H).
  destruct (H Habsent) as [Hdel Hput].
  split_and!; [exact Habsent|exact Hdel|exact (Hput "world")].
Defined.

End store_updates.

Section transaction_views.

Implicit Types (k : txmemkv) (r : memkv) (key prefix : Key) (value : Value).

(** X3: in every reachable state of a transaction the keys of the overlay
    are the keys of the updated set, and a key with a tombstone has no
    value in the overlay. *)
Theorem X3_overlay_keys k :
  reachable k →
  (∀ key, is_Some (memkv_get key (tx k)) ↔ key ∈ updated k)
  ∧ (∀ key, key ∈ tombstones k → memkv_get key (tx k) = None).
Proof.
  intros Hk. destruct (reachable_inv k Hk) as [Hdisj Hov]. split.
  - intros key. split; [by apply reachable_overlay|apply Hov].
  - intros key Hd. apply eq_None_not_Some. intros Hs.
    apply reachable_overlay in Hs; [|done]. set_solver.
Qed.

Lemma X3_overlay_keys_witness :
  reachable tx8
  ∧ (∀ key, is_Some (memkv_get key (tx tx8)) ↔ key ∈ updated tx8)
  ∧ (∀ key, key ∈ tombstones tx8 → memkv_get key (tx tx8) = None).
Proof. split; [exact reachable_tx8|exact (X3_overlay_keys tx8 reachable_tx8)]. Defined.

(** X4: [List] and [Get] of a transaction agree.  In every reachable
    state, [List] of a prefix lists the keys with that prefix that [Get]
    finds; a key with a tombstone is never listed, whatever the root
    holds. *)
Theorem X4_tx_List_Get_agree k prefix :
  reachable k →
  (∀ key, key ∈ (result (txmemkv_List prefix) k).1 ↔
          is_Some ((result (txmemkv_Get key) k).1)
          ∧ HasPrefix key prefix = true)
  ∧ (∀ key, key ∈ tombstones k → key ∉ (result (txmemkv_List prefix) k).1).
Proof.
  intros Hk. split.
  - intros key. by apply elem_of_List_Get.
  - intros key Hd. rewrite elem_of_List_Get, result_Get by done. simpl.
    rewrite decide_True by done. by intros [[? ?] _].
Qed.

Lemma X4_tx_List_Get_agree_witness :
  reachable tx8
  ∧ "10" ∈ tombstones tx8
  ∧ "10" ∈ (result (memkv_List "1") (root tx8)).1
  ∧ "10" ∉ (result (txmemkv_List "1") tx8).1.
Proof.
  assert ("10" ∈ tombstones tx8) as Hd by compute_done.
  destruct (X4_tx_List_Get_agree tx8 "1" reachable_tx8) as [_ H].
  split_and!; [exact reachable_tx8|exact Hd|compute_done|exact (H "10" Hd)].
Defined.

(** X5: what [Put] changes in what a transaction shows, in any state.
    [Get] of the key returns the value put and [Get] of any other key
    answers as before; [List] lists the key under each of its prefixes and
    the other keys as before. *)
Theorem X5_tx_Put k key value :
  (∀ key', result (txmemkv_Get key') (exec (txmemkv_Put key value) k)
           = if decide (key' = key) then (Some value, nil_error)
             else result (txmemkv_Get key') k)
  ∧ (∀ prefix key',
       key' ∈ (result (txmemkv_List prefix)
                 (exec (txmemkv_Put key value) k)).1
       ↔ (key' = key ∧ HasPrefix key prefix = true)
         ∨ key' ∈ (result (txmemkv_List prefix) k).1).
Proof.
  split.
  - intros key'. rewrite !result_Get. simpl. rewrite get_put.
    destruct (decide (key' = key)) as [->|Hne].
    + rewrite decide_False by set_solver. by rewrite decide_True by set_solver.
    + repeat case_decide; first [done|set_solver].
  - intros prefix key'. rewrite !elem_of_txmemkv_List, !elem_of_memkv_list.
    simpl. rewrite get_put.
    pose proof (@is_Some_None Value) as HN.
    destruct (decide (key' = key)) as [->|Hne].
    + split; [tauto|]. intros Hr.
      assert (HasPrefix key prefix = true) as Hp by tauto.
      right. split; [by eexists|done].
    + rewrite elem_of_difference, elem_of_singleton. tauto.
Qed.

(** X6: what [Delete] changes in what a transaction shows, in any state.
    [Get] of the key finds nothing and [List] does not list it, also when
    the root holds the key; the other keys are found and listed as
    before. *)
Theorem X6_tx_Delete k key :
  (∀ key', result (txmemkv_Get key') (exec (txmemkv_Delete key) k)
           = if decide (key' = key) then (None, nil_error)
             else result (txmemkv_Get key') k)
  ∧ (∀ prefix key',
       key' ∈ (result (txmemkv_List prefix) (exec (txmemkv_Delete key) k)).1
       ↔ key' ≠ key ∧ key' ∈ (result (txmemkv_List prefix) k).1).
Proof.
  split.
  - intros key'. rewrite !result_Get. simpl. rewrite get_delete.
    destruct (decide (key' = key)) as [->|Hne].
    + by rewrite decide_True by set_solver.
    + repeat case_decide; first [done|set_solver].
  - intros prefix key'. rewrite !elem_of_txmemkv_List, !elem_of_memkv_list.
    simpl. rewrite get_delete.
    pose proof (@is_Some_None Value) as HN.
    destruct (decide (key' = key)) as [->|Hne].
    + rewrite elem_of_union, elem_of_singleton. tauto.
    + rewrite elem_of_union, elem_of_singleton. tauto.
Qed.

(** X7: a transaction that has just begun shows what its root shows:
    [Get] and [List] answer as the store's [Get] and [List] do, and [Begin]
    leaves the store as it is. *)
Theorem X7_Begin_view r :
  (∀ key, result (txmemkv_Get key) (result memkv_Begin r).1
          = result (memkv_Get key) r)
  ∧ (∀ prefix, result (txmemkv_List prefix) (result memkv_Begin r).1
               = result (memkv_List prefix) r)
  ∧ exec memkv_Begin r = r.
Proof.
  split_and!; [done| |done].
  intros prefix.
  change (result (memkv_List prefix) r) with (memkv_list prefix r, nil_error).
  rewrite (surjective_pairing (result _ _)). f_equal.
  apply sorted_keys_eq.
  - apply txmemkv_List_sorted.
  - apply memkv_list_sorted.
  - apply txmemkv_List_NoDup.
  - apply memkv_list_NoDup.
  - intros key. rewrite elem_of_txmemkv_List. simpl.
    rewrite (elem_of_memkv_list prefix newMemKV), get_newMemKV.
    pose proof (@is_Some_None Value) as HN. set_solver.
Qed.

(** X8: [Commit] makes the root show what the transaction showed.  For a
    reachable transaction, after [Commit] the root's [Get] and [List]
    answer as the transaction's [Get] and [List] did before it, and the
    transaction's own [Get] and [List] answer as before. *)
Theorem X8_Commit_publishes_view k :
  reachable k →
  (∀ key, result (memkv_Get key) (root (exec txmemkv_Commit k))
          = result (txmemkv_Get key) k)
  ∧ (∀ prefix, result (memkv_List prefix) (root (exec txmemkv_Commit k))
               = result (txmemkv_List prefix) k)
  ∧ (∀ key, result (txmemkv_Get key) (exec txmemkv_Commit k)
            = result (txmemkv_Get key) k)
  ∧ (∀ prefix, result (txmemkv_List prefix) (exec txmemkv_Commit k)
               = result (txmemkv_List prefix) k).
Proof.
  intros Hk. pose proof (reach_Commit k Hk) as Hk'. split_and!.
  - intros key.
    change (result (memkv_Get key) ?s) with (memkv_get key s, nil_error).
    rewrite get_Commit_view by done. by rewrite result_Get.
  - intros prefix.
    change (result (memkv_List prefix) ?s) with (memkv_list prefix s, nil_error).
    rewrite (surjective_pairing (result (txmemkv_List prefix) k)).
    f_equal. apply sorted_keys_eq.
    + apply memkv_list_sorted.
    + apply txmemkv_List_sorted.
    + apply memkv_list_NoDup.
    + apply txmemkv_List_NoDup.
    + intros key.
      by rewrite elem_of_memkv_list, elem_of_List_Get, get_Commit_view.
  - intros key. by apply result_Get_Commit.
  - intros prefix.
    rewrite (surjective_pairing (result (txmemkv_List prefix) k)),
      (surjective_pairing (result (txmemkv_List prefix) (exec _ k))).
    f_equal. apply sorted_keys_eq.
    + apply txmemkv_List_sorted.
    + apply txmemkv_List_sorted.
    + apply txmemkv_List_NoDup.
    + apply txmemkv_List_NoDup.
    + intros key. by rewrite !elem_of_List_Get, result_Get_Commit.
Qed.

Lemma X8_Commit_publishes_view_witness :
  reachable tx8
  ∧ result (memkv_List "1") (root (exec txmemkv_Commit tx8))
    = result (txmemkv_List "1") tx8
  ∧ (result (txmemkv_List "1") tx8).1 = ["1"; "11"; "12"; "13"; "14"; "15"].
Proof.
  destruct (X8_Commit_publishes_view tx8 reachable_tx8) as (_ & H & _).
  split_and!; [exact reachable_tx8|exact (H "1")|vm_compute; reflexivity].
Defined.

End transaction_views.

Section composition.

Implicit Types (k : txmemkv) (r : memkv) (key prefix : Key) (value : Value).

Lemma put_put key v1 v2 r :
  memkv_put key v2 (memkv_put key v1 r) = memkv_put key v2 r.
Proof.
  apply memkv_eq. intros key'. rewrite !get_put. by case_decide.
Qed.

Lemma put_delete key value r :
  memkv_put key value (memkv_delete key r) = memkv_put key value r.
Proof.
  apply memkv_eq. intros key'. rewrite !get_put, get_delete. by case_decide.
Qed.

Lemma delete_put key value r :
  memkv_delete key (memkv_put key value r) = memkv_delete key r.
Proof.
  apply memkv_eq. intros key'. rewrite !get_delete, get_put. by case_decide.
Qed.

Lemma delete_delete key r :
  memkv_delete key (memkv_delete key r) = memkv_delete key r.
Proof.
  apply memkv_eq. intros key'. rewrite !get_delete. by case_decide.
Qed.

Lemma exec_Put_fields key value k :
  exec (txmemkv_Put key value) k
  = Txmemkv (root k) (memkv_put key value (tx k))
      ({[key]} ∪ updated k) (tombstones k ∖ {[key]}).
Proof. done. Qed.

Lemma exec_Delete_fields key k :
  exec (txmemkv_Delete key) k
  = Txmemkv (root k) (memkv_delete key (tx k))
      (updated k ∖ {[key]}) ({[key]} ∪ tombstones k).
Proof. done. Qed.

Lemma Txmemkv_sets r t (u u' d d' : gset Key) :
  u = u' → d = d' → Txmemkv r t u d = Txmemkv r t u' d'.
Proof. by intros -> ->. Qed.

(** X9: on one key the last operation of a transaction decides.  [Put] or
    [Delete] of a key, after an earlier [Put] or [Delete] of the same key,
    leaves the transaction in the state it leaves without the earlier
    one. *)
Theorem X9_last_operation_wins k key v1 v2 :
  exec (txmemkv_Put key v2) (exec (txmemkv_Put key v1) k)
  = exec (txmemkv_Put key v2) k
  ∧ exec (txmemkv_Put key v2) (exec (txmemkv_Delete key) k)
    = exec (txmemkv_Put key v2) k
  ∧ exec (txmemkv_Delete key) (exec (txmemkv_Put key v1) k)
    = exec (txmemkv_Delete key) k
  ∧ exec (txmemkv_Delete key) (exec (txmemkv_Delete key) k)
    = exec (txmemkv_Delete key) k.
Proof.
  rewrite !exec_Put_fields, !exec_Delete_fields. cbn [root tx updated tombstones].
  rewrite put_put, put_delete, delete_put, delete_delete.
  split_and!; apply Txmemkv_sets; apply set_eq; intros x;
    destruct (decide (x = key)); set_solver.
Qed.

(** X10: operations of a transaction on two different keys commute: the
    state after the two does not depend on which came first. *)
Theorem X10_distinct_keys_commute k key1 key2 v1 v2 :
  key1 ≠ key2 →
  exec (txmemkv_Put key2 v2) (exec (txmemkv_Put key1 v1) k)
  = exec (txmemkv_Put key1 v1) (exec (txmemkv_Put key2 v2) k)
  ∧ exec (txmemkv_Delete key2) (exec (txmemkv_Put key1 v1) k)
    = exec (txmemkv_Put key1 v1) (exec (txmemkv_Delete key2) k)
  ∧ exec (txmemkv_Delete key2) (exec (txmemkv_Delete key1) k)
    = exec (txmemkv_Delete key1) (exec (txmemkv_Delete key2) k).
Proof.
  intros Hne.
  rewrite !exec_Put_fields, !exec_Delete_fields. cbn [root tx updated tombstones].
  assert (∀ v1 v2 r, memkv_put key2 v2 (memkv_put key1 v1 r)
                     = memkv_put key1 v1 (memkv_put key2 v2 r)) as Hpp.
  { intros. apply memkv_eq. intros key'. rewrite !get_put.
    repeat case_decide; congruence. }
  assert (∀ v1 r, memkv_delete key2 (memkv_put key1 v1 r)
                  = memkv_put key1 v1 (memkv_delete key2 r)) as Hdp.
  { intros. apply memkv_eq. intros key'.
    rewrite get_delete, !get_put, get_delete.
    repeat case_decide; congruence. }
  assert (∀ r, memkv_delete key2 (memkv_delete key1 r)
               = memkv_delete key1 (memkv_delete key2 r)) as Hdd.
  { intros. apply memkv_eq. intros key'. rewrite !get_delete.
    repeat case_decide; congruence. }
  rewrite Hpp, Hdp, Hdd.
  split_and!; apply Txmemkv_sets; set_solver.
Qed.

Lemma X10_distinct_keys_commute_witness :
  "14" ≠ "10"
  ∧ exec (txmemkv_Delete "10") (exec (txmemkv_Put "14" "world") tx7)
    = exec (txmemkv_Put "14" "world") (exec (txmemkv_Delete "10") tx7).
Proof.
  assert ("14" ≠ "10") as Hne by discriminate.
  destruct (X10_distinct_keys_commute tx7 "14" "10" "world" "world" Hne)
    as (_ & H & _).
  split; [exact Hne|exact H].
Defined.

(** X11: what [Commit] leaves does not depend on the order in which Go
    ranges over the two maps: for every order of the tombstones and every
    order of the updated keys, the two loops leave the same root, which
    holds at each key what [committed] says. *)
Theorem X11_Commit_any_order k dels upds :
  dels ≡ₚ elements (tombstones k) → upds ≡ₚ elements (updated k) →
  commit_in dels upds k = exec txmemkv_Commit k
  ∧ ∀ key, memkv_get key (root (commit_in dels upds k))
           = if decide (key ∈ updated k ∧ is_Some (memkv_get key (tx k)))
             then memkv_get key (tx k)
             else if decide (key ∈ tombstones k) then None
             else memkv_get key (root k).
Proof.
  intros Hd Hu. split; [by apply commit_order|].
  intros key. rewrite commit_order by done. apply get_Commit.
Qed.

Lemma X11_Commit_any_order_witness :
  ["10"] ≡ₚ elements (tombstones tx8)
  ∧ ["15"; "14"] ≡ₚ elements (updated tx8)
  ∧ commit_in ["10"] ["15"; "14"] tx8 = exec txmemkv_Commit tx8.
Proof.
  assert (["10"] ≡ₚ elements (tombstones tx8)) as Hd.
  { apply NoDup_Permutation; [compute_done|apply NoDup_elements|].
    intros x. rewrite elem_of_elements. unfold tx8, tx7. simpl. set_solver. }
  assert (["15"; "14"] ≡ₚ elements (updated tx8)) as Hu.
  { apply NoDup_Permutation; [compute_done|apply NoDup_elements|].
    intros x. rewrite elem_of_elements. unfold tx8, tx7. simpl.
    rewrite !elem_of_cons, elem_of_nil. set_solver. }
  split_and!; [exact Hd|exact Hu|].
  exact (proj1 (X11_Commit_any_order tx8 ["10"] ["15"; "14"] Hd Hu)).
Defined.

(** X12: two transactions on one store that commit one after the other:
    there is no conflict detection, and the later commit decides.  After
    the commit of [k1] and then of [k2], the store holds at a key what
    [k2] showed for it if [k2] has put or deleted the key, and otherwise
    what [k1] showed for it. *)
Theorem X12_last_committer_wins k1 k2 key :
  reachable k1 → reachable k2 →
  memkv_get key
    (root (exec txmemkv_Commit
             (set_root (root (exec txmemkv_Commit k1)) k2)))
  = if decide (key ∈ tombstones k2 ∨ key ∈ updated k2)
    then (result (txmemkv_Get key) k2).1
    else (result (txmemkv_Get key) k1).1.
Proof.
  intros Hk1 Hk2.
  rewrite get_Commit_view by by apply reach_root.
  rewrite (result_Get key (set_root _ _)), (result_Get key k2).
  cbn [fst set_root root tx updated tombstones].
  rewrite get_Commit_view by done.
  repeat case_decide; first [done|tauto].
Qed.

Lemma X12_last_committer_wins_witness :
  reachable tx7 ∧ reachable tx8
  ∧ memkv_get "10" (root tx7) = Some "world"
  ∧ memkv_get "10"
      (root (exec txmemkv_Commit
               (set_root (root (exec txmemkv_Commit tx7)) tx8)))
    = None
  ∧ memkv_get "14"
      (root (exec txmemkv_Commit
               (set_root (root (exec txmemkv_Commit tx8))
                  (exec (txmemkv_Put "14" "again") tx7))))
    = Some "again".
Proof.
  assert (reachable (exec (txmemkv_Put "14" "again") tx7)) as Hk
    by apply reach_Put, reachable_tx7.
  split_and!; [exact reachable_tx7|exact reachable_tx8|reflexivity|..].
  - rewrite (X12_last_committer_wins tx7 tx8 "10" reachable_tx7 reachable_tx8).
    vm_compute. reflexivity.
  - rewrite (X12_last_committer_wins tx8 _ "14" reachable_tx8 Hk).
    vm_compute. reflexivity.
Defined.

End composition.
